(** * Snapshot differencing and Top-10 ranking of [scripts/make-top10.js]

    A shallow embedding of the aggregation ([byLA]), the ranking ([top10]),
    the tolerant loader ([readJSONSafe]) and the part of [main] that builds
    the [by_sector] payload, followed by the properties of the specification
    that concern them.

    JavaScript values are modelled as follows.
    - A business record [{id, la, type}] is a record whose [la] field is
      optional: [None] stands for a missing ([undefined] / [null]) authority,
      [Some ""] for the empty string the XML reader stores.
    - A [Map] from authority name to count is an association list in
      insertion order with at most one entry per key; iteration order of a
      JavaScript [Map] is insertion order and [top10] depends on it.
    - Counts and deltas are integers ([Z]); the script's numbers are sums of
      ones and differences of such sums, which doubles represent exactly.
    - [Array.prototype.sort] is stable (ECMAScript 2019); [js_sort] is the
      stable insertion of each element, in turn, into the sorted rest. *)

From stdpp Require Import gmap strings list sorting.

Open Scope string_scope.
Open Scope Z_scope.

(** ** Sectors *)

Definition SECTORS : list (string * string) :=
  [ ("MOBILE", "Mobile caterer");
    ("RESTAURANT_CAFE", "Restaurant/Cafe/Canteen");
    ("PUB_BAR", "Pub/bar/nightclub");
    ("TAKEAWAY", "Takeaway/sandwich shop") ].

Definition MONITORED (ty : string) : bool :=
  bool_decide (ty ∈ SECTORS.*2).

(** ** Business records *)

Record business := Business {
  e_id : string;
  e_la : option string;
  e_type : string
}.

(** [e.la || "Unknown"]: a missing authority and the empty string are falsy. *)
Definition la_or_unknown (v : option string) : string :=
  match v with
  | None => "Unknown"
  | Some s => if decide (s = "") then "Unknown" else s
  end.

(** ** [Map] with insertion order *)

Definition jsmap := list (string * Z).

Fixpoint map_get (m : jsmap) (k : string) : option Z :=
  match m with
  | [] => None
  | (k', v) :: m' => if decide (k' = k) then Some v else map_get m' k
  end.

(** [m.set(k, v)]: an existing key keeps its position, a new key goes last. *)
Fixpoint map_set (m : jsmap) (k : string) (v : Z) : jsmap :=
  match m with
  | [] => [(k, v)]
  | (k', v') :: m' =>
      if decide (k' = k) then (k, v) :: m' else (k', v') :: map_set m' k v
  end.

Definition map_keys (m : jsmap) : list string := m.*1.

(** [x || 0] on the result of [m.get]: [undefined] and [0] are falsy. *)
Definition or_zero (o : option Z) : Z :=
  match o with
  | None => 0
  | Some v => if decide (v = 0) then 0 else v
  end.

(** The table a [Map] denotes, forgetting insertion order. *)
Definition table_of (m : jsmap) : gmap string Z := list_to_map m.

(** ** [byLA] *)

Definition byLA_step (wantedType : string) (m : jsmap) (e : business) : jsmap :=
  if decide (e_type e = wantedType) then
    let la := la_or_unknown (e_la e) in
    map_set m la (or_zero (map_get m la) + 1)
  else m.

Definition byLA (items : list business) (wantedType : string) : jsmap :=
  fold_left (byLA_step wantedType) items [].

(** ** [Set] with insertion order *)

Definition Set_add (s : list string) (x : string) : list string :=
  if decide (x ∈ s) then s else s ++ [x].

Definition new_Set (l : list string) : list string :=
  fold_left Set_add l [].

(** ** Stable sort with a comparator *)

Section js_sort.
Context {A : Type} (cmp : A → A → Z).

Fixpoint sort_insert (x : A) (l : list A) : list A :=
  match l with
  | [] => [x]
  | y :: l' =>
      if decide (cmp x y ≤ 0) then x :: y :: l' else y :: sort_insert x l'
  end.

Definition js_sort (l : list A) : list A := foldr sort_insert [] l.
End js_sort.

(** ** [top10] *)

Record row := Row {
  la : string;
  delta : Z;
  current : Z
}.

Record ranking := Ranking {
  growth : list row;
  reductions : list row
}.

Global Instance row_eq_dec : EqDecision row.
Proof. solve_decision. Defined.

Definition mk_row (p c : jsmap) (name : string) : row :=
  {| la := name;
     delta := or_zero (map_get c name) - or_zero (map_get p name);
     current := or_zero (map_get c name) |}.

Definition las (p c : jsmap) : list string :=
  new_Set (map_keys p ++ map_keys c).

Definition rows (p c : jsmap) : list row :=
  mk_row p c <$> las p c.

Definition cmp_desc (a b : row) : Z := delta b - delta a.
Definition cmp_asc (a b : row) : Z := delta a - delta b.

(** The two sorted lists of line 86 and 87 before [.slice(0, 10)]. *)
Definition growth_sorted (p c : jsmap) : list row :=
  js_sort cmp_desc (filter (λ r, 0 < delta r) (rows p c)).

Definition reductions_sorted (p c : jsmap) : list row :=
  js_sort cmp_asc (filter (λ r, delta r < 0) (rows p c)).

Definition top10 (prev curr : list business) (wantedType : string) : ranking :=
  let p := byLA prev wantedType in
  let c := byLA curr wantedType in
  {| growth := take 10 (growth_sorted p c);
     reductions := take 10 (reductions_sorted p c) |}.

(** ** [readJSONSafe] and the payload of [main] *)

Section persistence.
(** [fs.readFileSync(p, "utf8")]: [None] when the call throws (no such
    file, unreadable file). *)
Variable readFileSync : string → option string.
(** [JSON.parse] on the text of the snapshot file: [None] when it throws;
    a document it accepts is an array of records, as [main] wrote it. *)
Variable JSON_parse : string → option (list business).

Definition readJSONSafe (p : string) (fallback : list business)
  : list business :=
  match readFileSync p with
  | None => fallback
  | Some text =>
      match JSON_parse text with
      | None => fallback
      | Some v => v
      end
  end.

(** The [by_sector] object [main] writes, for the records [curr] that
    [parseCurrentBusinesses] returned. *)
Definition main_by_sector (curr : list business)
  : list (string * ranking) :=
  let prev := readJSONSafe "data/businesses_latest.json" [] in
  (λ kl, (kl.1, top10 prev curr kl.2)) <$> SECTORS.
End persistence.

(** ** Test data *)

Definition biz (name ty : string) : business :=
  {| e_id := ""; e_la := Some name; e_type := ty |}.

Definition PUB_BAR : string := "Pub/bar/nightclub".
Definition MOBILE : string := "Mobile caterer".

(** The "delta correctness" scenario of the specification: A goes from 10
    to 15, B stays at 5, C appears with 3 and D falls from 8 to 0. *)
Definition prev_scenario : list business :=
  replicate 10 (biz "A" MOBILE) ++ replicate 5 (biz "B" MOBILE)
    ++ replicate 8 (biz "D" MOBILE).

Definition curr_scenario : list business :=
  replicate 15 (biz "A" MOBILE) ++ replicate 5 (biz "B" MOBILE)
    ++ replicate 3 (biz "C" MOBILE).

(** Twenty-five authorities; the [i]-th (from 1) has [i] records. *)
Definition authorities25 : list string :=
  [ "A"; "B"; "C"; "D"; "E"; "F"; "G"; "H"; "I"; "J"; "K"; "L"; "M";
    "N"; "O"; "P"; "Q"; "R"; "S"; "T"; "U"; "V"; "W"; "X"; "Y" ].

Definition curr25 : list business :=
  mjoin (imap (λ i name, replicate (S i) (biz name MOBILE)) authorities25).

(** Eleven authorities with one record each. *)
Definition curr11 : list business :=
  (λ name, biz name MOBILE) <$> take 11 authorities25.

(** Records with a missing, an empty and a literal "Unknown" authority. *)
Definition unknown_mix : list business :=
  [ {| e_id := "1"; e_la := None; e_type := MOBILE |};
    {| e_id := "2"; e_la := Some ""; e_type := MOBILE |};
    {| e_id := "3"; e_la := Some "Unknown"; e_type := MOBILE |};
    {| e_id := "4"; e_la := Some "X"; e_type := MOBILE |};
    {| e_id := "5"; e_la := None; e_type := PUB_BAR |} ].

(** ** Vocabulary of the properties *)

(** A record counts for sector [wantedType] under authority [name]. *)
Definition counts_for (wantedType name : string) (e : business) : Prop :=
  e_type e = wantedType ∧ la_or_unknown (e_la e) = name.

Global Instance counts_for_dec wantedType name e :
  Decision (counts_for wantedType name e).
Proof. unfold counts_for. apply _. Defined.

Definition occurrences (items : list business) (wantedType name : string)
  : nat :=
  length (filter (counts_for wantedType name) items).

(** Records of a sector with an empty or missing authority, and records of a
    sector labelled with the literal string. *)
Definition no_authority (wantedType : string) (e : business) : Prop :=
  e_type e = wantedType ∧ (e_la e = None ∨ e_la e = Some "").

Definition literal_unknown (wantedType : string) (e : business) : Prop :=
  e_type e = wantedType ∧ e_la e = Some "Unknown".

Global Instance no_authority_dec wantedType e :
  Decision (no_authority wantedType e).
Proof. unfold no_authority. apply _. Defined.

Global Instance literal_unknown_dec wantedType e :
  Decision (literal_unknown wantedType e).
Proof. unfold literal_unknown. apply _. Defined.

(** The record with its authority replaced by the bucket it is counted in. *)
Definition relabel (e : business) : business :=
  {| e_id := e_id e;
     e_la := Some (la_or_unknown (e_la e));
     e_type := e_type e |}.

(** [before l x y]: [x] occurs in [l] at a position before an occurrence
    of [y]. *)
Inductive before {A : Type} : list A → A → A → Prop :=
  | before_here x y l : y ∈ l → before (x :: l) x y
  | before_later a x y l : before l x y → before (a :: l) x y.

(** Every stored count is positive: the invariant of [byLA]'s loop. *)
Definition positive_counts (m : jsmap) : Prop :=
  ∀ k v, map_get m k = Some v → 0 < v.

(** The orders the two comparators of [top10] induce. *)
Definition desc_by_delta : relation row := λ a b, delta b ≤ delta a.
Definition asc_by_delta : relation row := λ a b, delta a ≤ delta b.

(** An authority named in the previous or in the current table. *)
Definition in_union (p c : jsmap) (name : string) : Prop :=
  name ∈ map_keys p ∨ name ∈ map_keys c.

(** Current count minus previous count, each defaulting to zero. *)
Definition delta_of (p c : jsmap) (name : string) : Z :=
  or_zero (map_get c name) - or_zero (map_get p name).

(** [l] ranks the authorities of the union whose delta satisfies [sel]:
    every row of [l] is the row of such an authority, no authority has two
    rows, [l] is sorted by [ord] and has at most ten rows, and an authority
    that qualifies is left out only when [l] is full and ranks every row of
    [l] at least as high. *)
Definition ranked_list (sel : Z → Prop) (ord : relation row) (p c : jsmap)
    (l : list row) : Prop :=
  (∀ r, r ∈ l →
     in_union p c (la r) ∧ delta r = delta_of p c (la r) ∧
     current r = or_zero (map_get c (la r)) ∧ sel (delta r)) ∧
  NoDup (la <$> l) ∧
  StronglySorted ord l ∧
  (length l ≤ 10)%nat ∧
  (∀ name, in_union p c name → sel (delta_of p c name) →
     mk_row p c name ∈ l ∨
     (length l = 10%nat ∧ ∀ r, r ∈ l → ord r (mk_row p c name))).

(** ** [parseCurrentBusinesses] *)

(** An [EstablishmentDetail] element as the XML reader returns it; a field
    is [None] when the element has no such child. *)
Record establishment := Establishment {
  FHRSID : option string;
  LocalAuthorityName : option string;
  BusinessType : option string
}.

(** What [doc?.FHRSEstablishment?.EstablishmentCollection
    ?.EstablishmentDetail] evaluates to for one parsed file: nothing, one
    object (a collection of one) or an array. *)
Inductive detail :=
  | NoDetail
  | OneDetail (est : establishment)
  | ManyDetail (ests : list establishment).

(** [x ?? ""]. *)
Definition or_empty (v : option string) : string := default "" v.

(** [const list = ... || []; const items = Array.isArray(list) ? list :
    [list]]. *)
Definition items_of (d : detail) : list establishment :=
  match d with
  | NoDetail => []
  | OneDetail est => [est]
  | ManyDetail ests => ests
  end.

(** One turn of the inner loop: [None] for [continue], the pushed record
    otherwise. [est?.BusinessType || ""] is the type, or the empty string
    when it is missing or empty. *)
Definition record_of (est : establishment) : option business :=
  let type := or_empty (BusinessType est) in
  if MONITORED type then
    Some {| e_id := or_empty (FHRSID est);
            e_la := Some (or_empty (LocalAuthorityName est));
            e_type := type |}
  else None.

(** [parseCurrentBusinesses], on the parsed documents of the files that
    [walk] yields, in that order. *)
Definition parseCurrentBusinesses (docs : list detail) : list business :=
  docs ≫= λ d, omap record_of (items_of d).

(** ** One run of [main] on the files under [data/] *)

Section run.
(** [JSON.stringify(x, null, 2)] of a snapshot and of the payload. *)
Variable JSON_stringify : list business → string.
Variable JSON_stringify_payload : string → list (string * ranking) → string.
(** [JSON.parse] on the text of a snapshot file: [None] when it throws. *)
Variable JSON_parse : string → option (list business).
(** The [date] of the parsed text of [latest_snapshot.json] when it parses
    and has a truthy one. *)
Variable snapshot_date : string → option string.
(** [new Date().toISOString().slice(0, 10)]. *)
Variable today : string.

(** The files of [data/] after a run that started from the files [files]
    and parsed the records [curr]; a file is its path and its text. *)
Definition main_run (files : gmap string string) (curr : list business)
  : gmap string string :=
  let prev := readJSONSafe (λ p, files !! p) JSON_parse
                "data/businesses_latest.json" [] in
  let files1 :=
    <["data/businesses_previous.json" := JSON_stringify prev]> files in
  let files2 :=
    <["data/businesses_latest.json" := JSON_stringify curr]> files1 in
  let by_sector := (λ kl, (kl.1, top10 prev curr kl.2)) <$> SECTORS in
  let date :=
    match files2 !! "data/latest_snapshot.json" ≫= snapshot_date with
    | Some d => d
    | None => today
    end in
  <["data/la_deltas_latest.json" := JSON_stringify_payload date by_sector]>
    files2.
End run.

(** The sum of the counts of a table. *)
Definition total_count (m : jsmap) : Z := foldr (λ kv acc, kv.2 + acc) 0 m.

(** The authorities of the records of a sector, in record order. *)
Definition names_of (items : list business) (wantedType : string)
  : list string :=
  (λ e, la_or_unknown (e_la e)) <$> filter (λ e, e_type e = wantedType) items.

(** Establishments of two files: one array, one single object. *)
Definition docs_sample : list detail :=
  [ ManyDetail
      [ Establishment (Some "1") (Some "Leeds") (Some "Mobile caterer");
        Establishment (Some "2") (Some "Leeds") (Some "School/college");
        Establishment (Some "3") None (Some "Pub/bar/nightclub");
        Establishment None (Some "York") None ];
    NoDetail;
    OneDetail
      (Establishment (Some "4") (Some "York") (Some "Takeaway/sandwich shop")) ].

(** A text codec for snapshots that knows two snapshots. *)
Definition toy_stringify (l : list business) : string :=
  match l with [] => "[]" | _ => "snapshot" end.

Definition toy_parse (known : list business) (text : string)
  : option (list business) :=
  if decide (text = "[]") then Some []
  else if decide (text = "snapshot") then Some known
  else None.

(** * Properties *)

Example byLA_counts :
  byLA [biz "X" MOBILE; biz "Y" PUB_BAR; biz "" MOBILE; biz "X" MOBILE] MOBILE
  = [("X", 2); ("Unknown", 1)].
Proof. reflexivity. Qed.

Example top10_delta_scenario :
  top10 prev_scenario curr_scenario MOBILE
  = {| growth := [Row "A" 5 15; Row "C" 3 3];
       reductions := [Row "D" (-8) 0] |}.
Proof. vm_compute. reflexivity. Qed.

(** ** The [Map] operations *)

Lemma map_get_set m k v k' :
  map_get (map_set m k v) k' = if decide (k = k') then Some v else map_get m k'.
Proof.
  induction m as [|[k0 v0] m IH]; simpl.
  - done.
  - destruct (decide (k0 = k)) as [->|Hne]; simpl.
    + by destruct (decide (k = k')).
    + rewrite IH. destruct (decide (k0 = k')) as [->|]; [|done].
      by rewrite decide_False.
Qed.

Lemma map_keys_set m k v : map_keys (map_set m k v) = Set_add (map_keys m) k.
Proof.
  unfold Set_add, map_keys. induction m as [|[k0 v0] m IH]; csimpl.
  - done.
  - destruct (decide (k0 = k)) as [->|Hne]; csimpl.
    + by rewrite decide_True by left.
    + rewrite IH. destruct (decide (k ∈ m.*1)) as [Hin|Hnin].
      * by rewrite decide_True by (by right).
      * rewrite decide_False; [done|]. rewrite elem_of_cons. naive_solver.
Qed.

Lemma map_get_keys m k : k ∈ map_keys m ↔ is_Some (map_get m k).
Proof.
  unfold map_keys. induction m as [|[k0 v0] m IH]; csimpl.
  - rewrite elem_of_nil. split; [done|]. by intros [? ?].
  - rewrite elem_of_cons, IH. destruct (decide (k0 = k)) as [->|Hne].
    + split; [by eexists|by left].
    + naive_solver.
Qed.

Lemma table_of_lookup m k : table_of m !! k = map_get m k.
Proof.
  unfold table_of. induction m as [|[k0 v0] m IH]; simpl.
  - apply lookup_empty.
  - rewrite lookup_insert, IH. by destruct (decide (k0 = k)).
Qed.

Lemma table_of_eq m1 m2 :
  table_of m1 = table_of m2 ↔ ∀ k, map_get m1 k = map_get m2 k.
Proof.
  split.
  - intros Heq k. by rewrite <-!table_of_lookup, Heq.
  - intros Heq. apply map_eq. intros k. by rewrite !table_of_lookup.
Qed.

(** ** [Set] *)

Lemma Set_add_elem s x y : y ∈ Set_add s x ↔ y ∈ s ∨ y = x.
Proof.
  unfold Set_add. destruct (decide (x ∈ s)).
  - naive_solver.
  - rewrite elem_of_app, list_elem_of_singleton. naive_solver.
Qed.

Lemma Set_add_NoDup s x : NoDup s → NoDup (Set_add s x).
Proof.
  unfold Set_add. intros Hs. destruct (decide (x ∈ s)); [done|].
  apply NoDup_app. split_and!; [done| |apply NoDup_singleton].
  intros y Hy ->%list_elem_of_singleton. done.
Qed.

Lemma fold_Set_add_elem l s y :
  y ∈ fold_left Set_add l s ↔ y ∈ s ∨ y ∈ l.
Proof.
  revert s. induction l as [|x l IH]; intros s; simpl.
  - rewrite elem_of_nil. naive_solver.
  - rewrite IH, Set_add_elem, elem_of_cons. naive_solver.
Qed.

Lemma fold_Set_add_NoDup l s : NoDup s → NoDup (fold_left Set_add l s).
Proof.
  revert s. induction l as [|x l IH]; intros s Hs; simpl; [done|].
  by apply IH, Set_add_NoDup.
Qed.

Lemma new_Set_elem l y : y ∈ new_Set l ↔ y ∈ l.
Proof.
  unfold new_Set. rewrite fold_Set_add_elem, elem_of_nil. naive_solver.
Qed.

Lemma new_Set_NoDup l : NoDup (new_Set l).
Proof. apply fold_Set_add_NoDup, NoDup_nil_2. Qed.

(** ** Aggregation *)

Lemma or_zero_positive m k : positive_counts m → 0 ≤ or_zero (map_get m k).
Proof.
  intros Hm. unfold or_zero. destruct (map_get m k) as [v|] eqn:Hk; [|done].
  apply Hm in Hk. destruct (decide (v = 0)); lia.
Qed.

Lemma or_zero_Some v : 0 < v → or_zero (Some v) = v.
Proof. intros Hv. unfold or_zero. destruct (decide (v = 0)); [lia|done]. Qed.

Lemma byLA_step_get t m e k :
  map_get (byLA_step t m e) k =
    if decide (counts_for t k e) then Some (or_zero (map_get m k) + 1)
    else map_get m k.
Proof.
  unfold byLA_step, counts_for. destruct (decide (e_type e = t)) as [Ht|Ht].
  - rewrite map_get_set.
    destruct (decide (la_or_unknown (e_la e) = k)) as [<-|Hk].
    + by rewrite decide_True.
    + by rewrite decide_False by naive_solver.
  - by rewrite decide_False by naive_solver.
Qed.

Lemma byLA_step_positive t m e :
  positive_counts m → positive_counts (byLA_step t m e).
Proof.
  intros Hm k v. rewrite byLA_step_get.
  destruct (decide (counts_for t k e)); [|apply Hm].
  intros [= <-]. pose proof (or_zero_positive m k Hm). lia.
Qed.

Lemma byLA_step_keys t m e :
  map_keys (byLA_step t m e) =
    if decide (e_type e = t)
    then Set_add (map_keys m) (la_or_unknown (e_la e)) else map_keys m.
Proof.
  unfold byLA_step. destruct (decide (e_type e = t)); [|done].
  apply map_keys_set.
Qed.

Lemma occurrences_cons e items t k :
  occurrences (e :: items) t k =
    if decide (counts_for t k e) then S (occurrences items t k)
    else occurrences items t k.
Proof.
  unfold occurrences. rewrite filter_cons.
  by destruct (decide (counts_for t k e)).
Qed.

Lemma fold_byLA_get t items m k :
  positive_counts m →
  map_get (fold_left (byLA_step t) items m) k =
    if decide (occurrences items t k = 0%nat) then map_get m k
    else Some (or_zero (map_get m k) + Z.of_nat (occurrences items t k)).
Proof.
  revert m. induction items as [|e items IH]; intros m Hm.
  - done.
  - cbn [fold_left]. rewrite IH by by apply byLA_step_positive.
    rewrite occurrences_cons, byLA_step_get.
    pose proof (or_zero_positive m k Hm) as Hge.
    destruct (decide (counts_for t k e)) as [Hc|Hc].
    + rewrite (decide_False (P := S _ = 0%nat)) by lia.
      rewrite or_zero_Some by lia.
      destruct (decide (occurrences items t k = 0%nat)) as [->|_];
        f_equal; lia.
    + done.
Qed.

Lemma fold_byLA_NoDup t items m :
  NoDup (map_keys m) → NoDup (map_keys (fold_left (byLA_step t) items m)).
Proof.
  revert m. induction items as [|e items IH]; intros m Hm; [done|].
  cbn [fold_left]. apply IH. rewrite byLA_step_keys.
  destruct (decide (e_type e = t)); [by apply Set_add_NoDup|done].
Qed.

Lemma byLA_get items t k :
  map_get (byLA items t) k =
    if decide (occurrences items t k = 0%nat) then None
    else Some (Z.of_nat (occurrences items t k)).
Proof.
  unfold byLA. rewrite fold_byLA_get by (by intros ? ?).
  by destruct (decide (occurrences items t k = 0%nat)).
Qed.

Lemma byLA_NoDup items t : NoDup (map_keys (byLA items t)).
Proof. apply fold_byLA_NoDup, NoDup_nil_2. Qed.

Lemma byLA_or_zero items t k :
  or_zero (map_get (byLA items t) k) = Z.of_nat (occurrences items t k).
Proof.
  rewrite byLA_get. destruct (decide (occurrences items t k = 0%nat)) as [->|].
  - done.
  - apply or_zero_Some. lia.
Qed.

Lemma byLA_keys items t k :
  k ∈ map_keys (byLA items t) ↔ (0 < occurrences items t k)%nat.
Proof.
  rewrite map_get_keys, byLA_get.
  destruct (decide (occurrences items t k = 0%nat)) as [->|].
  - split; [by intros [? ?]|lia].
  - split; [lia|by eexists].
Qed.

Lemma occurrences_Permutation items items' t k :
  items ≡ₚ items' → occurrences items t k = occurrences items' t k.
Proof. intros Hp. unfold occurrences. by rewrite Hp. Qed.

(** Tables with unique keys that agree on every lookup hold the same
    entries. *)
Lemma same_lookup_Permutation (m1 m2 : jsmap) :
  NoDup (map_keys m1) → NoDup (map_keys m2) →
  (∀ k, map_get m1 k = map_get m2 k) → m1 ≡ₚ m2.
Proof.
  intros Hn1 Hn2 Heq.
  assert (Hin : ∀ m, NoDup (map_keys m) →
            ∀ k v, (k, v) ∈ m ↔ map_get m k = Some v).
  { clear. induction m as [|[k0 v0] m IH]; intros Hn k v; csimpl.
    - rewrite elem_of_nil. naive_solver.
    - apply NoDup_cons in Hn as [Hk0 Hn]. rewrite elem_of_cons, IH by done.
      destruct (decide (k0 = k)) as [->|Hne].
      + split; [|naive_solver]. intros [[= ->]|Hget]; [done|].
        destruct Hk0. apply map_get_keys. by eexists.
      + naive_solver. }
  apply NoDup_Permutation.
  - eapply NoDup_fmap_1, Hn1.
  - eapply NoDup_fmap_1, Hn2.
  - intros [k v]. by rewrite !Hin, Heq.
Qed.

(** ** The stable sort *)

Section js_sort_facts.
Context {A : Type} (cmp : A → A → Z) (R : relation A).
Hypothesis cmp_R : ∀ x y, cmp x y ≤ 0 ↔ R x y.
Hypothesis R_total : ∀ x y, R x y ∨ R y x.
Hypothesis R_trans : ∀ x y z, R x y → R y z → R x z.

Lemma sort_insert_Permutation x l : sort_insert cmp x l ≡ₚ x :: l.
Proof.
  induction l as [|y l IH]; cbn [sort_insert]; [done|].
  destruct (decide (cmp x y ≤ 0)); [done|].
  rewrite IH. apply Permutation_swap.
Qed.

Lemma js_sort_Permutation l : js_sort cmp l ≡ₚ l.
Proof.
  induction l as [|x l IH]; [done|].
  cbn [js_sort foldr]. rewrite sort_insert_Permutation.
  by apply Permutation_skip.
Qed.

Lemma sort_insert_sorted x l :
  StronglySorted R l → StronglySorted R (sort_insert cmp x l).
Proof.
  induction 1 as [|y l Hl IH Hy]; cbn [sort_insert].
  - repeat constructor.
  - destruct (decide (cmp x y ≤ 0)) as [Hxy|Hxy].
    + apply cmp_R in Hxy. constructor; [by constructor|].
      constructor; [done|]. eapply Forall_impl; [exact Hy|].
      intros z Hz. by eapply R_trans.
    + constructor; [done|]. rewrite sort_insert_Permutation.
      constructor; [|done]. destruct (R_total x y) as [Hr|Hr]; [|done].
      by apply cmp_R in Hr.
Qed.

Lemma js_sort_sorted l : StronglySorted R (js_sort cmp l).
Proof.
  induction l as [|x l IH]; [constructor|].
  cbn [js_sort foldr]. by apply sort_insert_sorted.
Qed.

(** Stability: rows that compare equal keep their relative order. *)
Section stable.
Context (P : A → Prop) `{!∀ x, Decision (P x)}.
Hypothesis P_tied : ∀ x y, P x → P y → cmp x y ≤ 0.

Lemma sort_insert_filter x l :
  filter P (sort_insert cmp x l) = filter P (x :: l).
Proof.
  induction l as [|y l IH]; cbn [sort_insert]; [done|].
  destruct (decide (cmp x y ≤ 0)) as [Hxy|Hxy]; [done|].
  rewrite filter_cons, IH, !filter_cons.
  destruct (decide (P y)) as [Hy|Hy]; [|done].
  destruct (decide (P x)) as [Hx|Hx]; [|done].
  destruct Hxy. by apply P_tied.
Qed.

Lemma js_sort_filter l : filter P (js_sort cmp l) = filter P l.
Proof.
  induction l as [|x l IH]; [done|].
  cbn [js_sort foldr]. rewrite sort_insert_filter, !filter_cons.
  fold (js_sort cmp l). by rewrite IH.
Qed.
End stable.
End js_sort_facts.

(** ** Relative position in a list *)

Section before_facts.
Context {A : Type}.
Implicit Types (l : list A) (x y : A).

Lemma before_elem_of l x y : before l x y → x ∈ l ∧ y ∈ l.
Proof.
  induction 1 as [x y l Hy|a x y l _ [IHx IHy]].
  - split; [left|by right].
  - split; by right.
Qed.

Lemma before_fmap {B} (f : A → B) l x y :
  before l x y → before (f <$> l) (f x) (f y).
Proof.
  induction 1 as [x y l Hy|a x y l _ IH]; csimpl.
  - apply before_here. by apply list_elem_of_fmap_2.
  - by apply before_later.
Qed.

Lemma before_filter (P : A → Prop) `{!∀ x, Decision (P x)} l x y :
  before l x y → P x → P y → before (filter P l) x y.
Proof.
  intros Hb Hx Hy. induction Hb as [x y l Hin|a x y l _ IH].
  - rewrite filter_cons_True by done. apply before_here.
    by apply list_elem_of_filter.
  - rewrite filter_cons. destruct (decide (P a)); [|by apply IH].
    apply before_later. by apply IH.
Qed.

Lemma before_filter_inv (P : A → Prop) `{!∀ x, Decision (P x)} l x y :
  before (filter P l) x y → before l x y.
Proof.
  induction l as [|a l IH]; [by inversion 1|].
  rewrite filter_cons. destruct (decide (P a)) as [Ha|Ha].
  - inversion 1 as [? ? ? Hin|? ? ? ? Hb]; subst.
    + apply before_here. by apply list_elem_of_filter in Hin as [_ ?].
    + apply before_later. by apply IH.
  - intros Hb. apply before_later. by apply IH.
Qed.

Lemma before_take n l x y :
  NoDup l → before l x y → y ∈ take n l → before (take n l) x y.
Proof.
  intros Hl Hb. revert n Hl.
  induction Hb as [x y l Hin|a x y l Hb IH]; intros [|n] Hl; csimpl;
    try (by intros ?%elem_of_nil);
    apply NoDup_cons in Hl as [Hnin Hl]; intros Hy%elem_of_cons.
  - destruct Hy as [->|Hy]; [done|]. by apply before_here.
  - destruct Hy as [->|Hy].
    + by apply before_elem_of in Hb as [_ ?].
    + apply before_later. by apply IH.
Qed.

Lemma before_NoDup_ne l x y : NoDup l → before l x y → x ≠ y.
Proof.
  intros Hl Hb. induction Hb as [x y l Hin|a x y l _ IH];
    apply NoDup_cons in Hl as [Hnin Hl].
  - by intros ->.
  - by apply IH.
Qed.
End before_facts.

(** ** The rows of [top10] *)

Lemma las_elem p c name : name ∈ las p c ↔ in_union p c name.
Proof. unfold las, in_union. by rewrite new_Set_elem, elem_of_app. Qed.

Lemma las_NoDup p c : NoDup (las p c).
Proof. apply new_Set_NoDup. Qed.

Lemma rows_la p c : la <$> rows p c = las p c.
Proof.
  unfold rows. rewrite <-list_fmap_compose. apply list_fmap_id.
Qed.

Lemma rows_elem p c r :
  r ∈ rows p c ↔ r = mk_row p c (la r) ∧ in_union p c (la r).
Proof.
  unfold rows. rewrite list_elem_of_fmap. setoid_rewrite las_elem. split.
  - by intros (name & -> & Hin).
  - intros [Hr Hin]. by exists (la r).
Qed.

Lemma rows_NoDup p c : NoDup (rows p c).
Proof.
  eapply (NoDup_fmap_1 la). rewrite rows_la. apply las_NoDup.
Qed.

Lemma rows_same_la p c r1 r2 :
  r1 ∈ rows p c → r2 ∈ rows p c → la r1 = la r2 → r1 = r2.
Proof.
  intros [H1 _]%rows_elem [H2 _]%rows_elem Hla. by rewrite H1, H2, Hla.
Qed.

Section ranked.
Context (cmp : row → row → Z) (ord : relation row).
Context (sel : Z → Prop) `{!∀ d, Decision (sel d)}.
Hypothesis cmp_ord : ∀ x y, cmp x y ≤ 0 ↔ ord x y.
Hypothesis ord_total : ∀ x y, ord x y ∨ ord y x.
Hypothesis ord_trans : ∀ x y z, ord x y → ord y z → ord x z.
Context (p c : jsmap).

Let selected : list row := filter (λ r, sel (delta r)) (rows p c).
Let sorted : list row := js_sort cmp selected.

Lemma sorted_elem r :
  r ∈ sorted ↔ r ∈ rows p c ∧ sel (delta r).
Proof.
  unfold sorted, selected.
  by rewrite js_sort_Permutation, list_elem_of_filter, (comm and).
Qed.

Lemma sorted_NoDup_la : NoDup (la <$> sorted).
Proof.
  unfold sorted, selected. rewrite js_sort_Permutation.
  apply (sublist_NoDup _ (las p c)); [apply las_NoDup|].
  rewrite <-rows_la. apply fmap_sublist, sublist_filter.
Qed.

Lemma take_sorted_ranked : ranked_list sel ord p c (take 10 sorted).
Proof.
  unfold ranked_list. split_and!.
  - intros r Hr%subseteq_take.
    apply sorted_elem in Hr as [[Hr Hin]%rows_elem Hsel].
    split_and!; [done|by rewrite Hr at 1|by rewrite Hr at 1|done].
  - apply (sublist_NoDup _ (la <$> sorted)); [apply sorted_NoDup_la|].
    apply fmap_sublist, sublist_take.
  - pose proof (js_sort_sorted cmp ord cmp_ord ord_total ord_trans selected)
      as Hs.
    fold sorted in Hs. rewrite <-(take_drop 10 sorted) in Hs.
    by apply StronglySorted_app_1_l in Hs.
  - rewrite length_take. lia.
  - intros name Hin Hsel.
    assert (Hmem : mk_row p c name ∈ sorted).
    { apply sorted_elem. split; [|done]. apply rows_elem. by split. }
    rewrite <-(take_drop 10 sorted) in Hmem.
    apply elem_of_app in Hmem as [Hmem|Hmem]; [by left|right].
    pose proof (js_sort_sorted cmp ord cmp_ord ord_total ord_trans selected)
      as Hs.
    fold sorted in Hs. rewrite <-(take_drop 10 sorted) in Hs.
    split.
    + rewrite length_take. apply Nat.min_l.
      destruct (decide (10 ≤ length sorted)%nat) as [|Hlt]; [done|].
      rewrite drop_ge in Hmem by lia. by apply elem_of_nil in Hmem.
    + intros r Hr. by eapply StronglySorted_app_1_elem_of.
Qed.

Lemma sorted_NoDup : NoDup sorted.
Proof. eapply NoDup_fmap_1, sorted_NoDup_la. Qed.

(** Rows with equal deltas compare equal, so the stable sort leaves them
    in the order of [las]. *)
Hypothesis cmp_tied : ∀ x y, delta x = delta y → cmp x y ≤ 0.

Lemma take_sorted_stable r1 r2 :
  delta r1 = delta r2 →
  before (las p c) (la r1) (la r2) →
  r1 ∈ take 10 sorted → r2 ∈ take 10 sorted →
  before (take 10 sorted) r1 r2.
Proof.
  intros Hd Hb H1 H2.
  pose proof H1 as [[Hr1 _]%rows_elem Hs1]%subseteq_take%sorted_elem.
  pose proof H2 as [[Hr2 _]%rows_elem Hs2]%subseteq_take%sorted_elem.
  apply before_take; [apply sorted_NoDup| |done].
  apply (before_filter_inv (λ r, delta r = delta r1)).
  unfold sorted. rewrite js_sort_filter.
  - apply before_filter; [|done..]. apply before_filter; [|done..].
    rewrite Hr1, Hr2. by apply before_fmap.
  - intros x y Hx Hy. apply cmp_tied. congruence.
Qed.
End ranked.

Lemma las_same_tables p1 c1 p2 c2 :
  (∀ k, map_get p1 k = map_get p2 k) →
  (∀ k, map_get c1 k = map_get c2 k) →
  las p1 c1 ≡ₚ las p2 c2.
Proof.
  intros Hp Hc. apply NoDup_Permutation; [apply las_NoDup..|].
  intros name. unfold las. rewrite !new_Set_elem, !elem_of_app.
  by rewrite !map_get_keys, Hp, Hc.
Qed.

Lemma rows_same_tables p1 c1 p2 c2 :
  (∀ k, map_get p1 k = map_get p2 k) →
  (∀ k, map_get c1 k = map_get c2 k) →
  rows p1 c1 ≡ₚ rows p2 c2.
Proof.
  intros Hp Hc. unfold rows. rewrite (las_same_tables p1 c1 p2 c2) by done.
  assert (mk_row p1 c1 <$> las p2 c2 = mk_row p2 c2 <$> las p2 c2) as ->;
    [|done].
  apply list_fmap_ext. intros _ name _. unfold mk_row. by rewrite Hp, Hc.
Qed.

Section same_tables.
Context (cmp : row → row → Z) (ord : relation row).
Context (sel : Z → Prop) `{!∀ d, Decision (sel d)}.
Hypothesis cmp_ord : ∀ x y, cmp x y ≤ 0 ↔ ord x y.
Hypothesis ord_total : ∀ x y, ord x y ∨ ord y x.
Hypothesis ord_trans : ∀ x y z, ord x y → ord y z → ord x z.
Hypothesis ord_antisym : ∀ x y, ord x y → ord y x → delta x = delta y.
Hypothesis sel_nonzero : ∀ d, sel d → d ≠ 0.

Lemma sorted_same_tables p1 c1 p2 c2 :
  (∀ k, map_get p1 k = map_get p2 k) →
  (∀ k, map_get c1 k = map_get c2 k) →
  (∀ n1 n2, in_union p1 c1 n1 → in_union p1 c1 n2 →
     delta_of p1 c1 n1 = delta_of p1 c1 n2 → delta_of p1 c1 n1 ≠ 0 →
     n1 = n2) →
  js_sort cmp (filter (λ r, sel (delta r)) (rows p1 c1)) =
  js_sort cmp (filter (λ r, sel (delta r)) (rows p2 c2)).
Proof.
  intros Hp Hc Hties.
  assert (Hperm : js_sort cmp (filter (λ r, sel (delta r)) (rows p1 c1)) ≡ₚ
                  js_sort cmp (filter (λ r, sel (delta r)) (rows p2 c2))).
  { rewrite !js_sort_Permutation. by rewrite (rows_same_tables p1 c1 p2 c2). }
  apply (StronglySorted_unique_strong ord); [|by apply js_sort_sorted..|done].
  intros x1 x2 H1 H2 H12 H21. rewrite <-Hperm in H2.
  apply sorted_elem in H1 as [H1 Hs1], H2 as [H2 _].
  apply (rows_same_la p1 c1); [done..|].
  pose proof H1 as [Hx1 Hu1]%rows_elem. pose proof H2 as [Hx2 Hu2]%rows_elem.
  pose proof (ord_antisym _ _ H12 H21) as Hd.
  apply Hties; [done..| |].
  - rewrite Hx1, Hx2 in Hd. exact Hd.
  - apply sel_nonzero in Hs1. rewrite Hx1 in Hs1. exact Hs1.
Qed.
End same_tables.

(** ** Instances for the two lists of [top10] *)

Lemma cmp_desc_ord x y : cmp_desc x y ≤ 0 ↔ desc_by_delta x y.
Proof. unfold cmp_desc, desc_by_delta. lia. Qed.

Lemma cmp_asc_ord x y : cmp_asc x y ≤ 0 ↔ asc_by_delta x y.
Proof. unfold cmp_asc, asc_by_delta. lia. Qed.

Lemma desc_total x y : desc_by_delta x y ∨ desc_by_delta y x.
Proof. unfold desc_by_delta. lia. Qed.

Lemma asc_total x y : asc_by_delta x y ∨ asc_by_delta y x.
Proof. unfold asc_by_delta. lia. Qed.

Lemma desc_trans x y z :
  desc_by_delta x y → desc_by_delta y z → desc_by_delta x z.
Proof. unfold desc_by_delta. lia. Qed.

Lemma asc_trans x y z :
  asc_by_delta x y → asc_by_delta y z → asc_by_delta x z.
Proof. unfold asc_by_delta. lia. Qed.

Lemma desc_antisym x y :
  desc_by_delta x y → desc_by_delta y x → delta x = delta y.
Proof. unfold desc_by_delta. lia. Qed.

Lemma asc_antisym x y :
  asc_by_delta x y → asc_by_delta y x → delta x = delta y.
Proof. unfold asc_by_delta. lia. Qed.

Lemma cmp_desc_tied x y : delta x = delta y → cmp_desc x y ≤ 0.
Proof. unfold cmp_desc. lia. Qed.

Lemma cmp_asc_tied x y : delta x = delta y → cmp_asc x y ≤ 0.
Proof. unfold cmp_asc. lia. Qed.

Lemma positive_nonzero d : 0 < d → d ≠ 0.
Proof. lia. Qed.

Lemma negative_nonzero d : d < 0 → d ≠ 0.
Proof. lia. Qed.

Lemma growth_ranked prev curr t :
  ranked_list (λ d, 0 < d) desc_by_delta (byLA prev t) (byLA curr t)
    (growth (top10 prev curr t)).
Proof.
  exact (take_sorted_ranked cmp_desc desc_by_delta (λ d, 0 < d)
           cmp_desc_ord desc_total desc_trans (byLA prev t) (byLA curr t)).
Qed.

Lemma reductions_ranked prev curr t :
  ranked_list (λ d, d < 0) asc_by_delta (byLA prev t) (byLA curr t)
    (reductions (top10 prev curr t)).
Proof.
  exact (take_sorted_ranked cmp_asc asc_by_delta (λ d, d < 0)
           cmp_asc_ord asc_total asc_trans (byLA prev t) (byLA curr t)).
Qed.

Example byLA_unknown_mix :
  byLA unknown_mix MOBILE = [("Unknown", 3); ("X", 1)].
Proof. reflexivity. Qed.

Example top10_curr25 :
  la <$> growth (top10 [] curr25 MOBILE)
  = ["Y"; "X"; "W"; "V"; "U"; "T"; "S"; "R"; "Q"; "P"].
Proof. vm_compute. reflexivity. Qed.

(** * The aggregation claims *)

Lemma byLA_Permutation_get items items' t k :
  items ≡ₚ items' → map_get (byLA items t) k = map_get (byLA items' t) k.
Proof.
  intros Hp. by rewrite !byLA_get, (occurrences_Permutation items items').
Qed.

(** C7. For every record sequence and sector, [byLA] maps an authority to
    exactly the number of records of that sector whose normalised authority
    it is, when that number is positive, and has no entry for it otherwise;
    each key occurs once; a record of the sector with an empty or missing
    authority is counted under "Unknown". [byLA] is a total function on
    record sequences: no step of its loop can raise. *)
Theorem byLA_exact_counts (items : list business) (t name : string) :
  map_get (byLA items t) name =
    (if decide (occurrences items t name = 0%nat) then None
     else Some (Z.of_nat (occurrences items t name))) ∧
  (name ∈ map_keys (byLA items t) ↔ (0 < occurrences items t name)%nat) ∧
  NoDup (map_keys (byLA items t)) ∧
  (∀ e, e ∈ items → no_authority t e →
     ∃ n, map_get (byLA items t) "Unknown" = Some n ∧ 0 < n).
Proof.
  split_and!.
  - apply byLA_get.
  - apply byLA_keys.
  - apply byLA_NoDup.
  - intros e He [Ht Hla]. rewrite byLA_get.
    assert (0 < occurrences items t "Unknown")%nat as Hpos.
    { unfold occurrences.
      assert (e ∈ filter (counts_for t "Unknown") items) as Hin.
      { apply list_elem_of_filter. split; [|done]. split; [done|].
        by destruct Hla as [-> | ->]. }
      destruct (filter _ items); [by apply elem_of_nil in Hin|simpl; lia]. }
    rewrite decide_False by lia. eexists. split; [done|lia].
Qed.

Lemma byLA_exact_counts_witness :
  map_get (byLA unknown_mix MOBILE) "Unknown" = Some 3 ∧
  ∃ n, map_get (byLA unknown_mix MOBILE) "Unknown" = Some n ∧ 0 < n.
Proof.
  destruct (byLA_exact_counts unknown_mix MOBILE "Unknown")
    as (Hget & _ & _ & Hbucket).
  split.
  - rewrite Hget. vm_compute. reflexivity.
  - apply (Hbucket {| e_id := "2"; e_la := Some ""; e_type := MOBILE |}).
    + right. left.
    + split; [reflexivity|by right].
Defined.

(** C6. Aggregating a permutation of a record sequence yields the same
    table: the same keys, each with the same count. *)
Theorem byLA_order_independent (items items' : list business) (t : string) :
  items ≡ₚ items' →
  table_of (byLA items t) = table_of (byLA items' t) ∧
  byLA items t ≡ₚ byLA items' t.
Proof.
  intros Hp.
  assert (∀ k, map_get (byLA items t) k = map_get (byLA items' t) k) as Heq.
  { intros k. by apply byLA_Permutation_get. }
  split.
  - by apply table_of_eq.
  - apply same_lookup_Permutation; [apply byLA_NoDup..|done].
Qed.

Lemma byLA_order_independent_witness :
  table_of (byLA [biz "X" MOBILE; biz "Y" MOBILE; biz "X" MOBILE] MOBILE)
  = table_of (byLA [biz "Y" MOBILE; biz "X" MOBILE; biz "X" MOBILE] MOBILE) ∧
  byLA [biz "X" MOBILE; biz "Y" MOBILE; biz "X" MOBILE] MOBILE
  ≡ₚ byLA [biz "Y" MOBILE; biz "X" MOBILE; biz "X" MOBILE] MOBILE.
Proof.
  apply (byLA_order_independent
           [biz "X" MOBILE; biz "Y" MOBILE; biz "X" MOBILE]
           [biz "Y" MOBILE; biz "X" MOBILE; biz "X" MOBILE] MOBILE).
  apply Permutation_swap.
Defined.

Lemma la_or_unknown_idemp v :
  la_or_unknown (Some (la_or_unknown v)) = la_or_unknown v.
Proof.
  destruct v as [s|]; [|done]. unfold la_or_unknown.
  destruct (decide (s = "")) as [->|Hs]; [done|]. by rewrite decide_False.
Qed.

Lemma byLA_relabel items t : byLA (relabel <$> items) t = byLA items t.
Proof.
  unfold byLA. generalize ([] : jsmap).
  induction items as [|e items IH]; intros m; [done|].
  csimpl. rewrite IH. f_equal.
  unfold byLA_step, relabel. cbn [e_type e_la].
  by rewrite la_or_unknown_idemp.
Qed.

Lemma counts_for_unknown t e :
  counts_for t "Unknown" e ↔ no_authority t e ∨ literal_unknown t e.
Proof.
  unfold counts_for, no_authority, literal_unknown, la_or_unknown.
  destruct (e_la e) as [s|]; [|naive_solver].
  destruct (decide (s = "")) as [->|Hs]; naive_solver.
Qed.

Lemma no_authority_not_literal t e :
  no_authority t e → ¬ literal_unknown t e.
Proof. unfold no_authority, literal_unknown. naive_solver. Qed.

Lemma occurrences_unknown items t :
  occurrences items t "Unknown" =
    (length (filter (no_authority t) items)
     + length (filter (literal_unknown t) items))%nat.
Proof.
  unfold occurrences. induction items as [|e items IH]; [done|].
  rewrite !filter_cons.
  pose proof (counts_for_unknown t e) as Hc.
  pose proof (no_authority_not_literal t e) as Hd.
  destruct (decide (counts_for t "Unknown" e)),
    (decide (no_authority t e)), (decide (literal_unknown t e));
    simpl; rewrite ?IH; try lia; naive_solver.
Qed.

(** C10. Records of a sector with an empty or missing authority and records
    labelled with the literal "Unknown" share one bucket: its count is the
    sum of the two populations, and relabelling every record with the
    bucket it falls in changes neither a table nor a ranking. *)
Theorem unknown_bucket_merges (items prev curr : list business) (t : string) :
  let n := (length (filter (no_authority t) items)
            + length (filter (literal_unknown t) items))%nat in
  map_get (byLA items t) "Unknown" =
    (if decide (n = 0%nat) then None else Some (Z.of_nat n)) ∧
  byLA (relabel <$> items) t = byLA items t ∧
  top10 (relabel <$> prev) (relabel <$> curr) t = top10 prev curr t.
Proof.
  intros n. split_and!.
  - rewrite byLA_get. unfold n. by rewrite occurrences_unknown.
  - apply byLA_relabel.
  - unfold top10. by rewrite !byLA_relabel.
Qed.

(** * The ranking claims *)

(** Decide a closed membership statement by evaluation. *)
Ltac by_evaluation :=
  unfold in_union; apply (bool_decide_unpack _); vm_compute; exact I.

(** C1, as stated, fails when more than ten authorities gained: with eleven
    authorities of one new record each, "K" is in the union and has delta 1,
    and is in no row of the growth list. *)
Lemma growth_drops_eleventh_authority :
  in_union [] (byLA curr11 MOBILE) "K" ∧
  delta_of [] (byLA curr11 MOBILE) "K" = 1 ∧
  ("K" ∉ la <$> growth (top10 [] curr11 MOBILE)) ∧
  la <$> growth (top10 [] curr11 MOBILE)
  = ["A"; "B"; "C"; "D"; "E"; "F"; "G"; "H"; "I"; "J"].
Proof.
  split_and!.
  - by_evaluation.
  - reflexivity.
  - by_evaluation.
  - vm_compute. reflexivity.
Qed.

(** C1 (amended). For every previous and current snapshot and sector, each
    row of the growth list is the row of an authority of the union of the
    two tables' keys with delta = current count (default 0) - previous count
    (default 0) and delta > 0, each row of the reductions list is such a row
    with delta < 0, no authority has two rows in a list, growth is sorted
    descending and reductions ascending by delta, and an authority with a
    positive (negative) delta is missing from growth (reductions) only when
    that list already holds ten rows, none of which ranks below it. An
    authority with delta zero is in neither list. *)
Theorem top10_ranks_union_by_delta (prev curr : list business) (t : string) :
  let p := byLA prev t in
  let c := byLA curr t in
  ranked_list (λ d, 0 < d) desc_by_delta p c (growth (top10 prev curr t)) ∧
  ranked_list (λ d, d < 0) asc_by_delta p c (reductions (top10 prev curr t)) ∧
  (∀ name, delta_of p c name = 0 →
     (name ∉ la <$> growth (top10 prev curr t)) ∧
     (name ∉ la <$> reductions (top10 prev curr t))).
Proof.
  intros p c.
  pose proof (growth_ranked prev curr t) as Hg.
  pose proof (reductions_ranked prev curr t) as Hr.
  split_and!; [done..|].
  intros name Hz. split.
  - intros (r & -> & Hin)%list_elem_of_fmap.
    destruct Hg as (Hg & _). apply Hg in Hin as (_ & Hd & _ & Hpos).
    fold p c in Hd. lia.
  - intros (r & -> & Hin)%list_elem_of_fmap.
    destruct Hr as (Hr & _). apply Hr in Hin as (_ & Hd & _ & Hneg).
    fold p c in Hd. lia.
Qed.

Lemma top10_ranks_union_by_delta_witness :
  Row "C" 3 3 ∈ growth (top10 prev_scenario curr_scenario MOBILE) ∧
  Row "D" (-8) 0 ∈ reductions (top10 prev_scenario curr_scenario MOBILE) ∧
  ("B" ∉ la <$> growth (top10 prev_scenario curr_scenario MOBILE)).
Proof.
  destruct (top10_ranks_union_by_delta prev_scenario curr_scenario MOBILE)
    as ((_ & _ & _ & _ & Hg) & (_ & _ & _ & _ & Hr) & Hz).
  split_and!.
  - destruct (Hg "C") as [Hin|[Hlen _]].
    + by_evaluation.
    + vm_compute. reflexivity.
    + exact Hin.
    + vm_compute in Hlen. discriminate Hlen.
  - destruct (Hr "D") as [Hin|[Hlen _]].
    + by_evaluation.
    + vm_compute. reflexivity.
    + exact Hin.
    + vm_compute in Hlen. discriminate Hlen.
  - apply (Hz "B"). vm_compute. reflexivity.
Defined.

(** C4. Each list has at most ten rows; when more than ten authorities have
    a positive delta the growth list has exactly ten rows, and no row left
    out of it has a larger delta than a row in it. *)
Theorem top10_at_most_ten_rows (prev curr : list business) (t : string) :
  let p := byLA prev t in
  let c := byLA curr t in
  (length (growth (top10 prev curr t)) ≤ 10)%nat ∧
  (length (reductions (top10 prev curr t)) ≤ 10)%nat ∧
  ((10 < length (filter (λ r, (0 < delta r)%Z) (rows p c)))%nat →
     length (growth (top10 prev curr t)) = 10%nat ∧
     ∀ x y, x ∈ growth (top10 prev curr t) → y ∈ rows p c →
            y ∉ growth (top10 prev curr t) → delta y ≤ delta x).
Proof.
  cbv zeta.
  destruct (growth_ranked prev curr t) as (Hrow & _ & _ & Hlen & Hfull).
  destruct (reductions_ranked prev curr t) as (_ & _ & _ & Hlen' & _).
  split_and!; [done..|]. intros Hmany. split.
  - cbn [top10 growth]. rewrite length_take. unfold growth_sorted.
    erewrite Permutation_length by apply js_sort_Permutation.
    lia.
  - intros x y Hx [Hy Hu]%rows_elem Hny.
    pose proof Hx as Hx'. apply Hrow in Hx as (_ & _ & _ & Hpos).
    destruct (decide (0 < delta y)) as [Hy0|Hy0]; [|lia].
    destruct (Hfull (la y)) as [Hin|[_ Hord]].
    + exact Hu.
    + rewrite Hy in Hy0. exact Hy0.
    + by rewrite <-Hy in Hin.
    + rewrite <-Hy in Hord. by apply Hord in Hx'.
Qed.

Lemma top10_at_most_ten_rows_witness :
  length (growth (top10 [] curr25 MOBILE)) = 10%nat ∧
  ∀ x y, x ∈ growth (top10 [] curr25 MOBILE) →
         y ∈ rows (byLA [] MOBILE) (byLA curr25 MOBILE) →
         y ∉ growth (top10 [] curr25 MOBILE) → delta y ≤ delta x.
Proof.
  apply (top10_at_most_ten_rows [] curr25 MOBILE).
  apply Nat.ltb_lt. vm_compute. reflexivity.
Defined.

(** C5. No authority has a row in both the growth list and the reductions
    list of one ranking. *)
Theorem growth_reductions_disjoint (prev curr : list business) (t : string)
    (r1 r2 : row) :
  r1 ∈ growth (top10 prev curr t) →
  r2 ∈ reductions (top10 prev curr t) →
  la r1 ≠ la r2.
Proof.
  intros H1 H2 Hla.
  destruct (growth_ranked prev curr t) as (Hg & _).
  destruct (reductions_ranked prev curr t) as (Hr & _).
  apply Hg in H1 as (_ & Hd1 & _ & Hpos).
  apply Hr in H2 as (_ & Hd2 & _ & Hneg).
  rewrite Hla in Hd1. lia.
Qed.

Lemma growth_reductions_disjoint_witness :
  Row "A" 5 15 ∈ growth (top10 prev_scenario curr_scenario MOBILE) ∧
  Row "D" (-8) 0 ∈ reductions (top10 prev_scenario curr_scenario MOBILE) ∧
  la (Row "A" 5 15) ≠ la (Row "D" (-8) 0).
Proof.
  assert (Row "A" 5 15 ∈ growth (top10 prev_scenario curr_scenario MOBILE))
    as Hg by by_evaluation.
  assert (Row "D" (-8) 0
            ∈ reductions (top10 prev_scenario curr_scenario MOBILE))
    as Hr by by_evaluation.
  split_and!; [exact Hg|exact Hr|].
  exact (growth_reductions_disjoint prev_scenario curr_scenario MOBILE
           _ _ Hg Hr).
Defined.

Lemma byLA_no_records items t :
  (∀ e, e ∈ items → e_type e ≠ t) → byLA items t = [].
Proof.
  intros Hne. unfold byLA.
  assert (∀ m, fold_left (byLA_step t) items m = m) as Hfold; [|apply Hfold].
  induction items as [|e items IH]; intros m; [done|].
  cbn [fold_left]. unfold byLA_step at 2.
  rewrite decide_False by (apply Hne; left).
  apply IH. intros e' He'. apply Hne. by right.
Qed.

(** C9. When the previous Pub/bar/nightclub table is {Y: 4} and the current
    run has no Pub/bar/nightclub record, the ranking of that sector has the
    single reduction {la: "Y", delta: -4, current: 0} and no growth. *)
Theorem disappeared_authority_is_a_reduction (prev curr : list business) :
  byLA prev PUB_BAR = [("Y", 4)] →
  (∀ e, e ∈ curr → e_type e ≠ PUB_BAR) →
  top10 prev curr PUB_BAR
  = {| growth := []; reductions := [Row "Y" (-4) 0] |}.
Proof.
  intros Hprev Hcurr. unfold top10.
  rewrite Hprev, (byLA_no_records curr PUB_BAR Hcurr).
  vm_compute. reflexivity.
Qed.

Lemma disappeared_authority_is_a_reduction_witness :
  top10 (biz "Z" MOBILE :: replicate 4 (biz "Y" PUB_BAR))
        [biz "Y" MOBILE] PUB_BAR
  = {| growth := []; reductions := [Row "Y" (-4) 0] |}.
Proof.
  apply disappeared_authority_is_a_reduction.
  - vm_compute. reflexivity.
  - intros e ->%list_elem_of_singleton. vm_compute. discriminate.
Defined.

Lemma reductions_first_run curr t : reductions (top10 [] curr t) = [].
Proof.
  destruct (reductions_ranked [] curr t) as (Hr & _).
  destruct (reductions (top10 [] curr t)) as [|r l]; [done|].
  destruct (Hr r) as (_ & Hd & _ & Hneg); [left|].
  unfold delta_of in Hd. rewrite byLA_or_zero in Hd.
  change (byLA [] t) with ([] : jsmap) in Hd. cbn in Hd. lia.
Qed.

Lemma growth_first_run curr t r :
  r ∈ growth (top10 [] curr t) → 0 < delta r ∧ delta r = current r.
Proof.
  intros Hin. destruct (growth_ranked [] curr t) as (Hg & _).
  apply Hg in Hin as (_ & Hd & Hc & Hpos). split; [done|].
  rewrite Hd, Hc. unfold delta_of.
  change (byLA [] t) with ([] : jsmap). cbn. lia.
Qed.

(** C8. When the file of the previous snapshot cannot be read or parsed,
    [readJSONSafe] returns the empty fallback instead of raising, [main]
    ranks every sector against an empty previous table, and then no sector
    has a reduction and every growth row has a positive delta equal to its
    current count. *)
Theorem missing_previous_state_is_first_run
    (readFileSync : string → option string)
    (JSON_parse : string → option (list business))
    (curr : list business) :
  (readFileSync "data/businesses_latest.json" = None ∨
   ∃ text, readFileSync "data/businesses_latest.json" = Some text ∧
           JSON_parse text = None) →
  readJSONSafe readFileSync JSON_parse "data/businesses_latest.json" [] = [] ∧
  main_by_sector readFileSync JSON_parse curr
  = (λ kl, (kl.1, top10 [] curr kl.2)) <$> SECTORS ∧
  (∀ key r, (key, r) ∈ main_by_sector readFileSync JSON_parse curr →
     reductions r = [] ∧
     ∀ x, x ∈ growth r → 0 < delta x ∧ delta x = current x).
Proof.
  intros Hmissing.
  assert (readJSONSafe readFileSync JSON_parse
            "data/businesses_latest.json" [] = []) as Hload.
  { unfold readJSONSafe. destruct Hmissing as [->|(text & -> & ->)]; done. }
  unfold main_by_sector. rewrite Hload. split_and!; [done..|].
  intros key r ([k label] & [= -> ->] & _)%list_elem_of_fmap. split.
  - apply reductions_first_run.
  - intros x. apply growth_first_run.
Qed.

Lemma missing_previous_state_is_first_run_witness :
  main_by_sector (λ _, None) (λ _, None) [biz "X" MOBILE]
  = (λ kl, (kl.1, top10 [] [biz "X" MOBILE] kl.2)) <$> SECTORS.
Proof.
  apply (missing_previous_state_is_first_run (λ _, None) (λ _, None)
           [biz "X" MOBILE]).
  by left.
Defined.

Example first_run_payload :
  main_by_sector (λ _, None) (λ _, None) [biz "X" MOBILE]
  = [ ("MOBILE", {| growth := [Row "X" 1 1]; reductions := [] |});
      ("RESTAURANT_CAFE", {| growth := []; reductions := [] |});
      ("PUB_BAR", {| growth := []; reductions := [] |});
      ("TAKEAWAY", {| growth := []; reductions := [] |}) ].
Proof. vm_compute. reflexivity. Qed.

(** A corrupt file: the text is read and [JSON.parse] throws on it. *)
Example corrupt_file_payload :
  main_by_sector (λ _, Some "{not json") (λ _, None) [biz "X" MOBILE]
  = main_by_sector (λ _, None) (λ _, None) [biz "X" MOBILE].
Proof. reflexivity. Qed.

(** C2, as stated, fails: two current snapshots that are permutations of
    each other denote the same table, and the two authorities tied at
    delta 1 are ranked in the order in which the records named them. *)
Lemma tied_rows_follow_record_order :
  table_of (byLA [biz "A" MOBILE; biz "B" MOBILE] MOBILE)
  = table_of (byLA [biz "B" MOBILE; biz "A" MOBILE] MOBILE) ∧
  growth (top10 [] [biz "A" MOBILE; biz "B" MOBILE] MOBILE)
  = [Row "A" 1 1; Row "B" 1 1] ∧
  growth (top10 [] [biz "B" MOBILE; biz "A" MOBILE] MOBILE)
  = [Row "B" 1 1; Row "A" 1 1] ∧
  top10 [] [biz "A" MOBILE; biz "B" MOBILE] MOBILE
  ≠ top10 [] [biz "B" MOBILE; biz "A" MOBILE] MOBILE.
Proof.
  split_and!.
  - apply table_of_eq. intros k. apply byLA_Permutation_get, Permutation_swap.
  - reflexivity.
  - reflexivity.
  - vm_compute. discriminate.
Qed.

(** C2 (amended). Two inputs that denote the same pair of tables for a
    sector get the same ranking whenever no two authorities of the union
    share a non-zero delta. (Rows tied on a delta are ranked in the order in
    which the records first name their authorities, which the tables do not
    record.) *)
Theorem ranking_of_same_tables_without_ties
    (prev1 curr1 prev2 curr2 : list business) (t : string) :
  table_of (byLA prev1 t) = table_of (byLA prev2 t) →
  table_of (byLA curr1 t) = table_of (byLA curr2 t) →
  (∀ n1 n2,
     in_union (byLA prev1 t) (byLA curr1 t) n1 →
     in_union (byLA prev1 t) (byLA curr1 t) n2 →
     delta_of (byLA prev1 t) (byLA curr1 t) n1
       = delta_of (byLA prev1 t) (byLA curr1 t) n2 →
     delta_of (byLA prev1 t) (byLA curr1 t) n1 ≠ 0 →
     n1 = n2) →
  top10 prev1 curr1 t = top10 prev2 curr2 t.
Proof.
  intros Hp Hc Hties.
  pose proof (proj1 (table_of_eq _ _) Hp) as Hp'.
  pose proof (proj1 (table_of_eq _ _) Hc) as Hc'.
  unfold top10, growth_sorted, reductions_sorted. f_equal; f_equal.
  - exact (sorted_same_tables cmp_desc desc_by_delta (λ d, 0 < d)
             cmp_desc_ord desc_total desc_trans desc_antisym positive_nonzero
             _ _ _ _ Hp' Hc' Hties).
  - exact (sorted_same_tables cmp_asc asc_by_delta (λ d, d < 0)
             cmp_asc_ord asc_total asc_trans asc_antisym negative_nonzero
             _ _ _ _ Hp' Hc' Hties).
Qed.

Lemma no_ties_by_las p c :
  Forall (λ n1, Forall (λ n2,
            delta_of p c n1 = delta_of p c n2 → delta_of p c n1 ≠ 0 → n1 = n2)
            (las p c)) (las p c) →
  ∀ n1 n2, in_union p c n1 → in_union p c n2 →
    delta_of p c n1 = delta_of p c n2 → delta_of p c n1 ≠ 0 → n1 = n2.
Proof.
  intros Hall n1 n2 H1%las_elem H2%las_elem.
  rewrite Forall_forall in Hall. specialize (Hall n1 H1).
  rewrite Forall_forall in Hall. by apply Hall.
Qed.

Lemma ranking_of_same_tables_without_ties_witness :
  top10 prev_scenario curr_scenario MOBILE
  = top10 (reverse prev_scenario) (reverse curr_scenario) MOBILE.
Proof.
  apply ranking_of_same_tables_without_ties.
  - apply table_of_eq. intros k.
    apply byLA_Permutation_get. symmetry. apply reverse_Permutation.
  - apply table_of_eq. intros k.
    apply byLA_Permutation_get. symmetry. apply reverse_Permutation.
  - apply no_ties_by_las. apply (bool_decide_unpack _). vm_compute. exact I.
Defined.

(** C3, as stated, fails: "A" and "B" are tied at delta 1 and "A" is the
    smaller name, and "B", which the records name first, is ranked first. *)
Lemma tie_not_broken_by_name :
  growth (top10 [] [biz "B" MOBILE; biz "A" MOBILE] MOBILE)
  = [Row "B" 1 1; Row "A" 1 1] ∧
  delta (Row "A" 1 1) = delta (Row "B" 1 1) ∧
  String.ltb "A" "B" = true ∧
  ¬ before (growth (top10 [] [biz "B" MOBILE; biz "A" MOBILE] MOBILE))
      (Row "A" 1 1) (Row "B" 1 1).
Proof.
  split_and!; [reflexivity..|].
  change (growth (top10 [] [biz "B" MOBILE; biz "A" MOBILE] MOBILE))
    with [Row "B" 1 1; Row "A" 1 1].
  intros Hb. inversion Hb as [? ? ? Hin|? ? ? ? Hb']; subst.
  inversion Hb' as [? ? ? Hin|? ? ? ? Hb'']; subst.
  - by apply elem_of_nil in Hin.
  - inversion Hb''.
Qed.

(** C3 (amended). Of two authorities with equal deltas in the same list of
    a ranking, the one that comes first in the union of the two tables' keys
    (the keys of the previous table in insertion order, then the new keys of
    the current table) appears first in the list. *)
Theorem tied_rows_keep_insertion_order (prev curr : list business)
    (t : string) (r1 r2 : row) :
  delta r1 = delta r2 →
  before (las (byLA prev t) (byLA curr t)) (la r1) (la r2) →
  (r1 ∈ growth (top10 prev curr t) → r2 ∈ growth (top10 prev curr t) →
   before (growth (top10 prev curr t)) r1 r2) ∧
  (r1 ∈ reductions (top10 prev curr t) →
   r2 ∈ reductions (top10 prev curr t) →
   before (reductions (top10 prev curr t)) r1 r2).
Proof.
  intros Hd Hb. split.
  - exact (take_sorted_stable cmp_desc (λ d, 0 < d)
             (byLA prev t) (byLA curr t) cmp_desc_tied r1 r2 Hd Hb).
  - exact (take_sorted_stable cmp_asc (λ d, d < 0)
             (byLA prev t) (byLA curr t) cmp_asc_tied r1 r2 Hd Hb).
Qed.

Lemma tied_rows_keep_insertion_order_witness :
  before (growth (top10 [] [biz "B" MOBILE; biz "A" MOBILE] MOBILE))
    (Row "B" 1 1) (Row "A" 1 1).
Proof.
  apply (tied_rows_keep_insertion_order [] [biz "B" MOBILE; biz "A" MOBILE]
           MOBILE (Row "B" 1 1) (Row "A" 1 1)).
  - reflexivity.
  - vm_compute. apply before_here. left.
  - by_evaluation.
  - by_evaluation.
Defined.

(** * Further properties of the aggregation *)

Lemma or_zero_Some_id v : or_zero (Some v) = v.
Proof. unfold or_zero. by destruct (decide (v = 0)) as [->|]. Qed.

Lemma total_count_cons k v m : total_count ((k, v) :: m) = v + total_count m.
Proof. done. Qed.

Lemma total_count_increment m k :
  total_count (map_set m k (or_zero (map_get m k) + 1)) = total_count m + 1.
Proof.
  induction m as [|[k0 v0] m IH]; [done|].
  cbn [map_set map_get]. destruct (decide (k0 = k)) as [->|Hne].
  - rewrite or_zero_Some_id, !total_count_cons. lia.
  - rewrite !total_count_cons, IH. lia.
Qed.

Lemma fold_byLA_total t items m :
  total_count (fold_left (byLA_step t) items m)
  = total_count m + Z.of_nat (length (filter (λ e, e_type e = t) items)).
Proof.
  revert m. induction items as [|e items IH]; intros m.
  - rewrite filter_nil. cbn [fold_left length]. lia.
  - cbn [fold_left]. rewrite IH, filter_cons. unfold byLA_step.
    destruct (decide (e_type e = t)).
    + rewrite total_count_increment. cbn [length]. lia.
    + lia.
Qed.

(** The counts of a sector's table add up to the number of records of that
    sector: every record of the sector is counted once, under one key. *)
Theorem byLA_total (items : list business) (t : string) :
  total_count (byLA items t)
  = Z.of_nat (length (filter (λ e, e_type e = t) items)).
Proof. unfold byLA. by rewrite fold_byLA_total. Qed.

Lemma fold_byLA_keys t items m :
  map_keys (fold_left (byLA_step t) items m)
  = fold_left Set_add (names_of items t) (map_keys m).
Proof.
  revert m. induction items as [|e items IH]; intros m; [done|].
  cbn [fold_left]. rewrite IH, byLA_step_keys. unfold names_of.
  rewrite filter_cons. by destruct (decide (e_type e = t)).
Qed.

(** The keys of a sector's table are the authorities of its records in
    order of first occurrence. *)
Theorem byLA_keys_first_occurrence (items : list business) (t : string) :
  map_keys (byLA items t) = new_Set (names_of items t).
Proof. unfold byLA, new_Set. by rewrite fold_byLA_keys. Qed.

(** Records of other sectors leave a sector's table and ranking as they
    are. *)
Theorem other_sectors_ignored (prev curr : list business) (t : string) :
  byLA curr t = byLA (filter (λ e, e_type e = t) curr) t ∧
  top10 prev curr t
  = top10 (filter (λ e, e_type e = t) prev)
          (filter (λ e, e_type e = t) curr) t.
Proof.
  assert (∀ items, byLA items t = byLA (filter (λ e, e_type e = t) items) t)
    as Hfilter.
  { intros items. unfold byLA. generalize ([] : jsmap).
    induction items as [|e items IH]; intros m; [done|].
    rewrite filter_cons. cbn [fold_left]. unfold byLA_step at 2.
    destruct (decide (e_type e = t)) as [He|He].
    - cbn [fold_left]. unfold byLA_step at 3. rewrite decide_True by done.
      apply IH.
    - apply IH. }
  split; [apply Hfilter|].
  unfold top10. by rewrite <-!Hfilter.
Qed.

Lemma filter_iff_elem {A} (P1 P2 : A → Prop)
    `{!∀ x, Decision (P1 x), !∀ x, Decision (P2 x)} (l : list A) :
  (∀ x, x ∈ l → P1 x ↔ P2 x) → filter P1 l = filter P2 l.
Proof.
  induction l as [|a l IH]; intros Hiff; [done|].
  rewrite !filter_cons, IH by (intros x Hx; apply Hiff; by right).
  destruct (decide (P1 a)) as [H1|H1], (decide (P2 a)) as [H2|H2];
    try done; destruct (Hiff a); try (by left); naive_solver.
Qed.

Lemma fold_Set_add_fresh (l s : list string) :
  NoDup l → fold_left Set_add l s = (s ++ filter (λ y, y ∉ s) l)%list.
Proof.
  intros Hl. revert s. induction Hl as [|x l Hx Hl IH]; intros s.
  - by rewrite app_nil_r.
  - cbn [fold_left]. rewrite IH, filter_cons. unfold Set_add.
    destruct (decide (x ∈ s)) as [Hin|Hnin].
    + by rewrite decide_False by naive_solver.
    + rewrite decide_True by done. rewrite <-app_assoc. cbn. do 2 f_equal.
      apply filter_iff_elem. intros y Hy.
      rewrite not_elem_of_app, list_elem_of_singleton.
      split; [naive_solver|]. intros Hys. split; [done|]. by intros ->.
Qed.

Lemma new_Set_NoDup_id (l : list string) : NoDup l → new_Set l = l.
Proof.
  intros Hl. unfold new_Set. rewrite fold_Set_add_fresh by done. cbn.
  induction l as [|x l IH]; [done|].
  apply NoDup_cons in Hl as [_ Hl].
  rewrite filter_cons_True by apply not_elem_of_nil. by rewrite IH.
Qed.

(** The union [top10] iterates lists the authorities of the previous table
    in its order, then the authorities only the current table has, in its
    order. *)
Theorem las_previous_then_new (prev curr : list business) (t : string) :
  las (byLA prev t) (byLA curr t)
  = (map_keys (byLA prev t)
     ++ filter (λ name, name ∉ map_keys (byLA prev t))
          (map_keys (byLA curr t)))%list.
Proof.
  unfold las, new_Set. rewrite fold_left_app.
  fold (new_Set (map_keys (byLA prev t))).
  rewrite new_Set_NoDup_id by apply byLA_NoDup.
  apply fold_Set_add_fresh, byLA_NoDup.
Qed.

(** * Further properties of the ranking *)

Lemma empty_if_no_element {A} (l : list A) (P : A → Prop) :
  (∀ x, x ∈ l → P x) → (∀ x, x ∈ l → ¬ P x) → l = [].
Proof.
  intros Hp Hn. destruct l as [|x l]; [done|].
  destruct (Hn x); [left|apply Hp; left].
Qed.

Lemma filter_all {A} (P : A → Prop) `{!∀ x, Decision (P x)} (l : list A) :
  (∀ x, x ∈ l → P x) → filter P l = l.
Proof.
  induction l as [|a l IH]; intros Hall; [done|].
  rewrite filter_cons_True by (apply Hall; left).
  rewrite IH; [done|]. intros x Hx. apply Hall. by right.
Qed.

Lemma fmap_filter_comm {A B} (f : A → B) (Q : B → Prop)
    `{!∀ y, Decision (Q y)} (l : list A) :
  f <$> filter (λ x, Q (f x)) l = filter Q (f <$> l).
Proof.
  induction l as [|a l IH]; [done|].
  csimpl. rewrite !filter_cons. destruct (decide (Q (f a))); csimpl;
    by rewrite IH.
Qed.

(** Every row reports record counts: [current] is the number of current
    records of the sector under the row's authority and [delta] is that
    number minus the number of previous ones; an authority in the growth
    list has a current record and one in the reductions list had a previous
    record. *)
Theorem top10_rows_count_records (prev curr : list business) (t : string) :
  Forall (λ r,
      current r = Z.of_nat (occurrences curr t (la r)) ∧
      delta r = Z.of_nat (occurrences curr t (la r))
                - Z.of_nat (occurrences prev t (la r)) ∧
      (0 < occurrences curr t (la r))%nat)
    (growth (top10 prev curr t)) ∧
  Forall (λ r,
      current r = Z.of_nat (occurrences curr t (la r)) ∧
      delta r = Z.of_nat (occurrences curr t (la r))
                - Z.of_nat (occurrences prev t (la r)) ∧
      (0 < occurrences prev t (la r))%nat)
    (reductions (top10 prev curr t)).
Proof.
  destruct (growth_ranked prev curr t) as (Hg & _).
  destruct (reductions_ranked prev curr t) as (Hr & _).
  split; apply Forall_forall; intros r Hin.
  - apply Hg in Hin as (_ & Hd & Hc & Hsel).
    unfold delta_of in Hd. rewrite !byLA_or_zero in Hd.
    rewrite byLA_or_zero in Hc. split_and!; [done..|lia].
  - apply Hr in Hin as (_ & Hd & Hc & Hsel).
    unfold delta_of in Hd. rewrite !byLA_or_zero in Hd.
    rewrite byLA_or_zero in Hc. split_and!; [done..|lia].
Qed.

(** A current snapshot that holds the records of the previous one, in any
    order, ranks nothing. *)
Theorem unchanged_snapshot_ranks_nothing (prev curr : list business)
    (t : string) :
  prev ≡ₚ curr →
  top10 prev curr t = {| growth := []; reductions := [] |}.
Proof.
  intros Hp.
  destruct (top10_rows_count_records prev curr t) as [Hg Hr].
  destruct (growth_ranked prev curr t) as (Hg' & _).
  destruct (reductions_ranked prev curr t) as (Hr' & _).
  rewrite Forall_forall in Hg, Hr.
  destruct (top10 prev curr t) as [g r]. cbn [growth reductions] in *.
  f_equal.
  - apply (empty_if_no_element g (λ x, 0 < delta x)).
    + intros x Hx. by apply Hg' in Hx as (_ & _ & _ & ?).
    + intros x Hx. apply Hg in Hx as (_ & Hd & _).
      rewrite (occurrences_Permutation prev curr) in Hd by done. lia.
  - apply (empty_if_no_element r (λ x, delta x < 0)).
    + intros x Hx. by apply Hr' in Hx as (_ & _ & _ & ?).
    + intros x Hx. apply Hr in Hx as (_ & Hd & _).
      rewrite (occurrences_Permutation prev curr) in Hd by done. lia.
Qed.

Lemma unchanged_snapshot_ranks_nothing_witness :
  top10 [biz "X" MOBILE; biz "Y" MOBILE; biz "X" MOBILE]
        [biz "Y" MOBILE; biz "X" MOBILE; biz "X" MOBILE] MOBILE
  = {| growth := []; reductions := [] |}.
Proof.
  apply unchanged_snapshot_ranks_nothing. apply Permutation_swap.
Defined.

(** When the current snapshot has no record of a sector, the sector has no
    growth, every reduction row has current count 0 and the full previous
    count as its loss, and the reductions list holds as many rows as the
    previous table has authorities, up to ten. *)
Theorem sector_without_current_records (prev curr : list business)
    (t : string) :
  (∀ e, e ∈ curr → e_type e ≠ t) →
  growth (top10 prev curr t) = [] ∧
  Forall (λ r, current r = 0 ∧
               delta r = - Z.of_nat (occurrences prev t (la r)))
    (reductions (top10 prev curr t)) ∧
  length (reductions (top10 prev curr t))
  = (10 `min` length (map_keys (byLA prev t)))%nat.
Proof.
  intros Hnone. pose proof (byLA_no_records curr t Hnone) as Hc.
  destruct (top10_rows_count_records prev curr t) as [Hg Hr].
  rewrite Forall_forall in Hg, Hr.
  assert (∀ name, occurrences curr t name = 0%nat) as Hocc.
  { intros name. pose proof (byLA_or_zero curr t name) as Hz.
    rewrite Hc in Hz. cbn in Hz. lia. }
  split_and!.
  - apply (empty_if_no_element _ (λ _, True)); [done|].
    intros x Hx. apply Hg in Hx as (_ & _ & Hpos). rewrite Hocc in Hpos. lia.
  - apply Forall_forall. intros r Hin. apply Hr in Hin as (Hcur & Hd & _).
    rewrite Hocc in Hcur, Hd. split; [done|lia].
  - cbn [top10 reductions]. rewrite length_take. unfold reductions_sorted.
    erewrite Permutation_length by apply js_sort_Permutation.
    rewrite filter_all.
    + unfold rows. rewrite length_fmap, las_previous_then_new, Hc.
      change (map_keys []) with (@nil string).
      by rewrite filter_nil, app_nil_r.
    + intros r [Hrow Hin]%rows_elem. rewrite Hrow. cbn [delta mk_row].
      rewrite Hc. cbn [map_get]. rewrite byLA_or_zero.
      destruct Hin as [Hin|Hin].
      * apply byLA_keys in Hin. cbn. lia.
      * rewrite Hc in Hin. by apply elem_of_nil in Hin.
Qed.

Lemma sector_without_current_records_witness :
  growth (top10 prev_scenario [biz "Y" PUB_BAR] MOBILE) = [] ∧
  Forall (λ r, current r = 0 ∧
               delta r = - Z.of_nat (occurrences prev_scenario MOBILE (la r)))
    (reductions (top10 prev_scenario [biz "Y" PUB_BAR] MOBILE)) ∧
  length (reductions (top10 prev_scenario [biz "Y" PUB_BAR] MOBILE))
  = (10 `min` length (map_keys (byLA prev_scenario MOBILE)))%nat.
Proof.
  apply sector_without_current_records.
  intros e ->%list_elem_of_singleton. vm_compute. discriminate.
Defined.

Example sector_without_current_records_run :
  reductions (top10 prev_scenario [biz "Y" PUB_BAR] MOBILE)
  = [Row "A" (-10) 0; Row "D" (-8) 0; Row "B" (-5) 0].
Proof. vm_compute. reflexivity. Qed.

Lemma las_swap p c : las p c ≡ₚ las c p.
Proof.
  apply NoDup_Permutation; [apply las_NoDup..|].
  intros name. rewrite !las_elem. unfold in_union. naive_solver.
Qed.

Lemma growth_sorted_deltas p c :
  delta <$> growth_sorted p c
  ≡ₚ filter (λ d, 0 < d) (delta_of p c <$> las p c).
Proof.
  unfold growth_sorted. rewrite js_sort_Permutation.
  rewrite (fmap_filter_comm delta (λ d, 0 < d)).
  unfold rows. by rewrite <-list_fmap_compose.
Qed.

Lemma reductions_sorted_deltas p c :
  Z.opp <$> (delta <$> reductions_sorted c p)
  ≡ₚ filter (λ d, 0 < d) (delta_of p c <$> las p c).
Proof.
  unfold reductions_sorted. rewrite js_sort_Permutation.
  rewrite <-list_fmap_compose.
  assert (filter (λ r, delta r < 0) (rows c p)
          = filter (λ r, 0 < (Z.opp ∘ delta) r) (rows c p)) as ->.
  { apply list_filter_iff. intros r. cbn. lia. }
  rewrite (fmap_filter_comm (Z.opp ∘ delta) (λ d, 0 < d)).
  unfold rows. rewrite <-list_fmap_compose, (las_swap c p).
  assert (Z.opp ∘ delta ∘ mk_row c p <$> las p c
          = delta_of p c <$> las p c) as ->; [|done].
  apply list_fmap_ext. intros _ name _. unfold delta_of. cbn. lia.
Qed.

(** Swapping the two snapshots mirrors the ranking: the deltas of the
    growth list are, row by row, the negated deltas of the reductions list
    of the swapped ranking. *)
Theorem swapped_snapshots_mirror_deltas (a b : list business) (t : string) :
  delta <$> growth (top10 a b t)
  = Z.opp <$> (delta <$> reductions (top10 b a t)).
Proof.
  cbn [top10 growth reductions]. rewrite !fmap_take. f_equal.
  apply (StronglySorted_unique_strong (λ x y : Z, y ≤ x)).
  - intros. lia.
  - apply (StronglySorted_fmap _ desc_by_delta); [done|].
    apply (js_sort_sorted cmp_desc desc_by_delta
             cmp_desc_ord desc_total desc_trans).
  - apply (StronglySorted_fmap _ (λ x y : Z, x ≤ y)); [intros; lia|].
    apply (StronglySorted_fmap _ asc_by_delta); [done|].
    apply (js_sort_sorted cmp_asc asc_by_delta
             cmp_asc_ord asc_total asc_trans).
  - by rewrite growth_sorted_deltas, reductions_sorted_deltas.
Qed.

Example swapped_snapshots_scenario :
  top10 curr_scenario prev_scenario MOBILE
  = {| growth := [Row "D" 8 8];
       reductions := [Row "A" (-5) 10; Row "C" (-3) 0] |}.
Proof. vm_compute. reflexivity. Qed.

(** * Properties of [parseCurrentBusinesses] *)

Lemma MONITORED_labels ty :
  MONITORED ty = true ↔
  ty = "Mobile caterer" ∨ ty = "Restaurant/Cafe/Canteen" ∨
  ty = "Pub/bar/nightclub" ∨ ty = "Takeaway/sandwich shop".
Proof.
  unfold MONITORED. rewrite bool_decide_eq_true. cbn.
  rewrite !elem_of_cons, elem_of_nil. naive_solver.
Qed.

Lemma parseCurrentBusinesses_elem docs e :
  e ∈ parseCurrentBusinesses docs ↔
  ∃ d est, d ∈ docs ∧ est ∈ items_of d ∧ record_of est = Some e.
Proof.
  unfold parseCurrentBusinesses. rewrite list_elem_of_bind. split.
  - intros (d & (est & Hest & Hrec)%list_elem_of_omap & Hd). by exists d, est.
  - intros (d & est & Hd & Hest & Hrec). exists d. split; [|done].
    apply list_elem_of_omap. by exists est.
Qed.

(** Every record [parseCurrentBusinesses] returns has one of the four
    monitored business types and an authority that is a string (empty when
    the establishment names none); establishments of other types, or of no
    type, are dropped. *)
Theorem parsed_records_are_monitored (docs : list detail) :
  Forall (λ e, MONITORED (e_type e) = true ∧
               ∃ name, e_la e = Some name)
    (parseCurrentBusinesses docs) ∧
  ∀ d est, d ∈ docs → est ∈ items_of d →
    (MONITORED (or_empty (BusinessType est)) = true ↔
     ∃ e, e ∈ parseCurrentBusinesses docs ∧ record_of est = Some e).
Proof.
  split.
  - apply Forall_forall. intros e (d & est & _ & _ & Hrec)%parseCurrentBusinesses_elem.
    unfold record_of in Hrec.
    destruct (MONITORED (or_empty (BusinessType est))) eqn:Hm; [|done].
    injection Hrec as <-. cbn. split; [done|by eexists].
  - intros d est Hd Hest. unfold record_of.
    destruct (MONITORED (or_empty (BusinessType est))) eqn:Hm.
    + split; [|done]. intros _. eexists. split; [|done].
      apply parseCurrentBusinesses_elem. exists d, est.
      split_and!; [done..|]. unfold record_of. by rewrite Hm.
    + split; [done|]. by intros (e & _ & ?).
Qed.

Example parse_docs_sample :
  parseCurrentBusinesses docs_sample
  = [ Business "1" (Some "Leeds") "Mobile caterer";
      Business "3" (Some "") "Pub/bar/nightclub";
      Business "4" (Some "York") "Takeaway/sandwich shop" ].
Proof. vm_compute. reflexivity. Qed.

Lemma monitored_records_split (l : list business) :
  Forall (λ e, MONITORED (e_type e) = true) l →
  foldr Z.add 0
    ((λ kl, Z.of_nat (length (filter (λ e, e_type e = kl.2) l))) <$> SECTORS)
  = Z.of_nat (length l).
Proof.
  cbn [SECTORS fmap list_fmap foldr snd].
  induction 1 as [|e l He _ IH]; [done|].
  apply MONITORED_labels in He. rewrite !filter_cons.
  destruct He as [He|[He|[He|He]]]; rewrite He;
    repeat case_decide; try congruence; cbn [length]; lia.
Qed.

(** The four sector tables built from the parsed records count every
    parsed record exactly once between them. *)
Theorem sectors_count_every_parsed_record (docs : list detail) :
  foldr Z.add 0
    ((λ kl, total_count (byLA (parseCurrentBusinesses docs) kl.2))
       <$> SECTORS)
  = Z.of_nat (length (parseCurrentBusinesses docs)).
Proof.
  rewrite <-(monitored_records_split (parseCurrentBusinesses docs)).
  - f_equal. apply list_fmap_ext. intros _ kl _. apply byLA_total.
  - destruct (parsed_records_are_monitored docs) as [Hall _].
    eapply Forall_impl; [exact Hall|]. by intros e [? _].
Qed.

(** * Properties of consecutive runs of [main] *)

Section runs.
Context (JSON_stringify : list business → string).
Context (JSON_stringify_payload : string → list (string * ranking) → string).
Context (JSON_parse : string → option (list business)).
Context (snapshot_date : string → option string) (today : string).

Local Notation run :=
  (main_run JSON_stringify JSON_stringify_payload JSON_parse snapshot_date
     today).

Lemma main_run_latest files curr :
  run files curr !! "data/businesses_latest.json"
  = Some (JSON_stringify curr).
Proof.
  unfold main_run. rewrite lookup_insert_ne by done.
  by rewrite lookup_insert_eq.
Qed.

Lemma main_run_reload files curr :
  JSON_parse (JSON_stringify curr) = Some curr →
  readJSONSafe (λ p, run files curr !! p) JSON_parse
    "data/businesses_latest.json" [] = curr.
Proof.
  intros Hrt. unfold readJSONSafe. by rewrite main_run_latest, Hrt.
Qed.

(** The snapshot a run writes is the previous snapshot of the next run:
    when the written text parses back to the records, the next run ranks
    each sector from those records to its own and saves them as
    [businesses_previous.json]. *)
Theorem next_run_ranks_against_this_run (files : gmap string string)
    (curr1 curr2 : list business) :
  JSON_parse (JSON_stringify curr1) = Some curr1 →
  main_by_sector (λ p, run files curr1 !! p) JSON_parse curr2
  = (λ kl, (kl.1, top10 curr1 curr2 kl.2)) <$> SECTORS ∧
  run (run files curr1) curr2 !! "data/businesses_previous.json"
  = Some (JSON_stringify curr1).
Proof.
  intros Hrt. split.
  - unfold main_by_sector. by rewrite main_run_reload.
  - unfold main_run at 1. rewrite !lookup_insert_ne by done.
    rewrite lookup_insert_eq. by rewrite main_run_reload.
Qed.

(** Running again on the same records leaves every sector with empty
    growth and reductions lists. *)
Theorem rerun_on_same_records_ranks_nothing (files : gmap string string)
    (curr : list business) :
  JSON_parse (JSON_stringify curr) = Some curr →
  main_by_sector (λ p, run files curr !! p) JSON_parse curr
  = (λ kl, (kl.1, {| growth := []; reductions := [] |})) <$> SECTORS.
Proof.
  intros Hrt. unfold main_by_sector. rewrite main_run_reload by done.
  apply list_fmap_ext. intros _ kl _. f_equal.
  by apply unchanged_snapshot_ranks_nothing.
Qed.
End runs.

Lemma next_run_ranks_against_this_run_witness :
  main_by_sector
    (λ p, main_run toy_stringify (λ _ _, "payload")
            (toy_parse prev_scenario) (λ _, None) "2026-01-05"
            ∅ prev_scenario !! p)
    (toy_parse prev_scenario) curr_scenario
  = (λ kl, (kl.1, top10 prev_scenario curr_scenario kl.2)) <$> SECTORS.
Proof.
  apply (next_run_ranks_against_this_run toy_stringify (λ _ _, "payload")
           (toy_parse prev_scenario) (λ _, None) "2026-01-05"
           ∅ prev_scenario curr_scenario).
  reflexivity.
Defined.

Lemma rerun_on_same_records_ranks_nothing_witness :
  main_by_sector
    (λ p, main_run toy_stringify (λ _ _, "payload")
            (toy_parse prev_scenario) (λ _, None) "2026-01-05"
            ∅ prev_scenario !! p)
    (toy_parse prev_scenario) prev_scenario
  = (λ kl, (kl.1, {| growth := []; reductions := [] |})) <$> SECTORS.
Proof.
  apply (rerun_on_same_records_ranks_nothing toy_stringify (λ _ _, "payload")
           (toy_parse prev_scenario) (λ _, None) "2026-01-05"
           ∅ prev_scenario).
  reflexivity.
Defined.
